(** * network-discovery-agent: the CLI shell, the configuration loader and
      the scheduling engine of the specification

    The development has two parts.

    - [Agent] embeds the Python sources [agent/cli.py] and
      [agent/config_loader.py].  Python code is modelled in a small
      effect monad: a computation reads and updates the state of the
      remote table store, emits observable events (lines written by
      [typer.echo], requests sent to the store) and either returns a
      value or raises an exception.
    - [Engine] models the scan scheduling and execution engine that the
      specification designs (ScheduleEvaluator, RunExecutor, Scheduler).
      The sources contain no code for it, so its definitions follow the
      specification. *)

From stdpp Require Import gmap strings list.
From Stdlib Require Import ZArith Lia.

Local Open Scope string_scope.
Local Open Scope list_scope.
Local Open Scope Z_scope.

(** ** Observable effects *)

(** A request built by the store client's query builder:
    [supabase.table(name).select(columns)]. *)
Record Query := mkQuery {
  q_table : string;
  q_columns : option string
}.

#[export] Instance Query_eq_dec : EqDecision Query.
Proof. solve_decision. Defined.

(** Everything a run of the program does that an observer can see. *)
Inductive event :=
| EvEcho (msg : string)            (* typer.echo(msg): msg and a newline on stdout *)
| EvStoreRequest (q : Query)       (* a query executed against the remote store *)
| EvStoreLoad                      (* ConfigStore.load() *)
| EvStoreSave (config_id : string) (* ConfigStore.saveResult(config_id, _) *)
| EvScan (target : string)         (* scanner.scan(target) *)
| EvSleep (delay : Z)              (* a back-off wait *)
| EvDispatch (config_id : string)  (* the Scheduler hands a config to its workers *)
| EvRun (config_id : string).      (* RunExecutor.run starts for a config *)

#[export] Instance event_eq_dec : EqDecision event.
Proof. solve_decision. Defined.

Definition is_echo (e : event) : bool :=
  match e with EvEcho _ => true | _ => false end.

Definition is_store_access (e : event) : bool :=
  match e with
  | EvStoreRequest _ | EvStoreLoad | EvStoreSave _ => true
  | _ => false
  end.

Definition is_scan (e : event) : bool :=
  match e with EvScan _ => true | _ => false end.

Definition is_dispatch (e : event) : bool :=
  match e with EvDispatch _ => true | _ => false end.

Definition is_run (e : event) : bool :=
  match e with EvRun _ => true | _ => false end.

(** The text that a sequence of events leaves on standard output:
    [typer.echo] writes its message followed by a newline. *)
Definition newline : string := String (Ascii.ascii_of_nat 10) EmptyString.

Fixpoint stdout_of (evs : list event) : string :=
  match evs with
  | [] => EmptyString
  | EvEcho msg :: rest => msg +:+ newline +:+ stdout_of rest
  | _ :: rest => stdout_of rest
  end.

(** ** Python values and exceptions *)

(** A raised exception: the name of its class and its message. *)
Record exn := mkExn {
  exn_kind : string;
  exn_msg : string
}.

#[export] Instance exn_eq_dec : EqDecision exn.
Proof. solve_decision. Defined.

(** How a computation ends: with a value, or with an error of type [E]. *)
Inductive outcome (E A : Type) :=
| Return (a : A)
| Raise (e : E).
Arguments Return {E A} a.
Arguments Raise {E A} e.

Definition outcome_map {E A B} (f : A → B) (o : outcome E A) : outcome E B :=
  match o with
  | Return a => Return (f a)
  | Raise e => Raise e
  end.

(** A column value of a table row. *)
Inductive cell :=
| CNull
| CBool (b : bool)
| CInt (n : Z)
| CStr (s : string).

#[export] Instance cell_eq_dec : EqDecision cell.
Proof. solve_decision. Defined.

(** A row of a table, as the client hands it over: a dict from column
    names to values. *)
Abbreviation Row := (gmap string cell).

(** The response object of an executed query; the code reads its [data]
    attribute only. *)
Record Response := mkResponse {
  data : list Row;
  count : option Z
}.

(** ** The effect monad

    A computation over a state of type [St] with errors of type [E]:
    from the state to an outcome, the new state, and the events emitted
    on the way.  An error stops the computation; the state changes and
    events that came before it stay. *)
Definition Eff (E St A : Type) : Type := St → outcome E A * St * list event.

Section Effects.
Context {E St : Type}.

Definition ret {A} (a : A) : Eff E St A := fun s => (Return a, s, []).

Definition bind {A B} (c : Eff E St A) (k : A → Eff E St B) : Eff E St B :=
  fun s =>
    match c s with
    | (Return a, s1, evs1) =>
        match k a s1 with
        | (o, s2, evs2) => (o, s2, evs1 ++ evs2)
        end
    | (Raise e, s1, evs1) => (Raise e, s1, evs1)
    end.

Definition raise {A} (e : E) : Eff E St A := fun s => (Raise e, s, []).

(** [try: c except e: h e] *)
Definition catch {A} (c : Eff E St A) (h : E → Eff E St A) : Eff E St A :=
  fun s =>
    match c s with
    | (Return a, s1, evs1) => (Return a, s1, evs1)
    | (Raise e, s1, evs1) =>
        match h e s1 with
        | (o, s2, evs2) => (o, s2, evs1 ++ evs2)
        end
    end.

Definition emit (e : event) : Eff E St unit := fun s => (Return tt, s, [e]).
Definition get : Eff E St St := fun s => (Return s, s, []).
Definition modify (f : St → St) : Eff E St unit := fun s => (Return tt, f s, []).

(** Runs [k] on each element in turn and collects the results. *)
Fixpoint for_each {A B} (k : A → Eff E St B) (l : list A) : Eff E St (list B) :=
  match l with
  | [] => ret []
  | a :: rest =>
      bind (k a) (fun b => bind (for_each k rest) (fun bs => ret (b :: bs)))
  end.

Definition result_of {A} (x : outcome E A * St * list event) : outcome E A := x.1.1.
Definition state_of {A} (x : outcome E A * St * list event) : St := x.1.2.
Definition events_of {A} (x : outcome E A * St * list event) : list event := x.2.
End Effects.
Arguments result_of {E St A} !x /.
Arguments state_of {E St A} !x /.
Arguments events_of {E St A} !x /.

Notation "'let*' x := c 'in' k" := (bind c (fun x => k))
  (at level 10, x name, c at level 100, k at level 200,
   format "'[v' 'let*'  x  :=  c  'in' '/' k ']'").
Notation "c ;; k" := (bind c (fun _ => k))
  (at level 100, k at level 200, right associativity).

(** ** The sources: [agent/cli.py] and [agent/config_loader.py] *)

Module Agent.

Section WithStore.

(** [config_loader.py] imports the client object [supabase] from the
    module [supabase_client], which is not part of the sources.  The
    client and the service behind it are therefore parameters: [Remote]
    is the state of the remote service and [respond q r] is what
    executing the query [q] does in state [r]: it returns a response or
    raises, and leaves the service in a new state. *)
Context {Remote : Type}.
Variable respond : Query → Remote → outcome exn Response * Remote.

(** A Python computation: the state is that of the remote service,
    the errors are Python exceptions. *)
Definition Py (A : Type) : Type := Eff exn Remote A.

(** *** The libraries the sources call *)

(** [typer.echo(message)] *)
Definition echo (message : string) : Py unit := emit (EvEcho message).

(** [supabase.table(name)]: starts a request on a table; nothing is sent. *)
Definition table (name : string) : Query :=
  {| q_table := name; q_columns := None |}.

(** [builder.select(columns)]: still nothing is sent. *)
Definition select (columns : string) (q : Query) : Query :=
  {| q_table := q_table q; q_columns := Some columns |}.

(** [builder.execute()]: sends the request and hands back the response,
    or raises what the client raises. *)
Definition execute (q : Query) : Py Response :=
  fun r =>
    match respond q r with
    | (o, r') => (o, r', [EvStoreRequest q])
    end.

(** *** [agent/config_loader.py] *)

(** <<
    def load_configs():
        resp = supabase.table('scan_configs').select('*').execute()
        return resp.data
    >> *)
Definition load_configs : Py (list Row) :=
  let* resp := execute (select "*" (table "scan_configs")) in
  ret (data resp).

(** *** [agent/cli.py] *)

(** <<
    def list_configs():
        typer.echo("Placeholder: list-configs command")
    >> *)
Definition list_configs : Py unit :=
  echo "Placeholder: list-configs command".

(** <<
    def run(config_id: str):
        typer.echo(f"Placeholder: run scan for {config_id}")
    >> *)
Definition run (config_id : string) : Py unit :=
  echo ("Placeholder: run scan for " +:+ config_id).

(** <<
    def schedule():
        typer.echo("Placeholder: schedule scans")
    >> *)
Definition schedule : Py unit :=
  echo "Placeholder: schedule scans".

End WithStore.

(** The one request [load_configs] sends. *)
Definition scan_configs_query : Query :=
  {| q_table := "scan_configs"; q_columns := Some "*" |}.

(** *** An in-memory stand-in for the remote service

    Used to run the definitions above on concrete stores.  The service
    holds named tables; when it cannot be reached the client raises its
    transport error, and a query on a table that does not exist is
    rejected by the service. *)
Record MemStore := mkMemStore {
  service_up : bool;
  tables : gmap string (list Row)
}.

Definition ConnectError : exn :=
  {| exn_kind := "ConnectError"; exn_msg := "connection refused" |}.

Definition APIError (msg : string) : exn :=
  {| exn_kind := "APIError"; exn_msg := msg |}.

Definition project (columns : option string) (row : Row) : Row :=
  match columns with
  | None => row
  | Some cols =>
      if decide (cols = "*") then row
      else filter (fun kv => kv.1 = cols) row
  end.

Definition mem_respond (q : Query) (s : MemStore) : outcome exn Response * MemStore :=
  if service_up s then
    match tables s !! q_table q with
    | Some rows =>
        (Return {| data := project (q_columns q) <$> rows;
                   count := None |}, s)
    | None => (Raise (APIError "relation does not exist"), s)
    end
  else (Raise ConnectError, s).

(** *** Concrete stores *)

Definition config_row (name : string) (on : bool) : Row :=
  {[ "id" := CStr name; "target" := CStr "10.0.0.0/24"; "enabled" := CBool on ]}.

(** A reachable store whose table [scan_configs] holds an enabled row, a
    disabled row and a row with no columns at all. *)
Definition demo_rows : list Row :=
  [config_row "c1" true; config_row "c2" false; ∅].

Definition demo_store : MemStore :=
  {| service_up := true; tables := {[ "scan_configs" := demo_rows ]} |}.

(** The same service with an empty table. *)
Definition empty_store : MemStore :=
  {| service_up := true; tables := {[ "scan_configs" := [] ]} |}.

(** The same service when it cannot be reached. *)
Definition down_store : MemStore :=
  {| service_up := false; tables := {[ "scan_configs" := demo_rows ]} |}.

(** *** Vocabulary of the statements *)

(** The events of a run contain nothing of the engine: no store access, no
    scan, no scheduling. *)
Definition no_engine_activity (evs : list event) : Prop :=
  ∀ e, e ∈ evs →
       is_store_access e = false ∧ is_scan e = false ∧
       is_dispatch e = false ∧ is_run e = false.

(** The command [c] prints the line [line] and does nothing else: it
    returns [None], leaves the remote store alone and emits the one echo. *)
Definition prints_only {Remote} (c : Py (Remote := Remote) unit) (line : string) : Prop :=
  ∀ r, result_of (c r) = Return tt ∧
       state_of (c r) = r ∧
       events_of (c r) = [EvEcho line] ∧
       no_engine_activity (events_of (c r)).

(** A row of a disabled configuration, and a row that lacks the identifier
    column. *)
Definition row_disabled (row : Row) : Prop := row !! "enabled" = Some (CBool false).
Definition row_malformed (row : Row) : Prop := row !! "id" = None.

(** The reading of "list_configs invokes load_configs" on the events: the
    request of [load_configs] is among those the command emits. *)
Definition invokes_load_configs {Remote} (c : Py (Remote := Remote) unit) (r : Remote) : Prop :=
  EvStoreRequest scan_configs_query ∈ events_of (c r).

(** The reading of "fails with StoreUnavailableError": the computation
    raises an exception of that class. *)
Definition fails_with {Remote A} (kind : string) (c : Py (Remote := Remote) A)
    (r : Remote) : Prop :=
  ∃ e, result_of (c r) = Raise e ∧ exn_kind e = kind.

(** The number of newline characters in a text. *)
Fixpoint count_newlines (s : string) : nat :=
  match s with
  | EmptyString => 0
  | String a rest =>
      (if decide (a = Ascii.ascii_of_nat 10) then 1 else 0) + count_newlines rest
  end%nat.

(** *** Invocations of the application

    [app = typer.Typer()] registers the three functions with
    [@app.command()], in this order; a run of the application calls one of
    them with the argument it was given. *)
Inductive command :=
| ListConfigs
| Run (config_id : string)
| Schedule.

#[export] Instance command_eq_dec : EqDecision command.
Proof. solve_decision. Defined.

Definition invoke {Remote} (c : command) : Py (Remote := Remote) unit :=
  match c with
  | ListConfigs => list_configs
  | Run config_id => run config_id
  | Schedule => schedule
  end.

(** Invocations one after the other, on the same standard output. *)
Definition session {Remote} (cs : list command) : Py (Remote := Remote) (list unit) :=
  for_each invoke cs.

(** The text a run leaves on standard output. *)
Definition output {Remote A} (x : outcome exn A * Remote * list event) : string :=
  stdout_of (events_of x).


(** The message an invocation hands to [typer.echo]. *)
Definition line_of (c : command) : string :=
  match c with
  | ListConfigs => "Placeholder: list-configs command"
  | Run config_id => "Placeholder: run scan for " +:+ config_id
  | Schedule => "Placeholder: schedule scans"
  end.

(** [n] calls of [load_configs] in a row. *)
Definition load_repeatedly {Remote}
    (respond : Query → Remote → outcome exn Response * Remote) (n : nat)
    : Py (Remote := Remote) (list (list Row)) :=
  for_each (fun _ : unit => load_configs respond) (replicate n tt).

End Agent.

(** ** The engine of the specification

    The sources stop at the placeholders above.  The specification goes
    on to design the engine the commands are meant to drive; this module
    writes that design down so that its properties can be stated. *)

Module Engine.

(** Modelled from the spec: the error taxonomy of section 7; no source
    file defines these error kinds. *)
Inductive Error :=
| ConfigError
| TransientScanError
| TimeoutError
| InvalidTargetError
| StoreUnavailableError
| StoreWriteError.

#[export] Instance Error_eq_dec : EqDecision Error.
Proof. solve_decision. Defined.

(** *** Data model (section 3) *)

(** Modelled from the spec: ScheduleSpec, "either a fixed-interval
    (duration) or a cron-like expression; exactly one representation is
    populated".  The interval is in seconds. *)
Inductive ScheduleSpec :=
| FixedInterval (interval : Z)
| CronLike (expr : string).

#[export] Instance ScheduleSpec_eq_dec : EqDecision ScheduleSpec.
Proof. solve_decision. Defined.

(** Modelled from the spec: the last-status enumeration of ScanConfig. *)
Inductive LastStatus :=
| NEVER_RUN
| LAST_SUCCESS
| LAST_FAILURE
| LAST_RUNNING.

#[export] Instance LastStatus_eq_dec : EqDecision LastStatus.
Proof. solve_decision. Defined.

(** Modelled from the spec: ScanConfig.  Timestamps are seconds. *)
Record ScanConfig := mkScanConfig {
  id : string;
  target : string;
  schedule_spec : ScheduleSpec;
  enabled : bool;
  last_run : option Z;
  last_status : LastStatus
}.

#[export] Instance ScanConfig_eq_dec : EqDecision ScanConfig.
Proof. solve_decision. Defined.

(** Modelled from the spec: the status of a RunResult. *)
Inductive RunStatus :=
| SUCCESS
| FAILURE
| TIMEOUT.

#[export] Instance RunStatus_eq_dec : EqDecision RunStatus.
Proof. solve_decision. Defined.

(** Modelled from the spec: RunResult.  [error_detail] is present iff the
    status is not SUCCESS; [persist_error] is the per-item error field that
    the Scheduler fills in when saving the result fails. *)
Record RunResult := mkRunResult {
  config_id : string;
  start_time : Z;
  end_time : Z;
  status : RunStatus;
  discovered_items : list string;
  error_detail : option Error;
  persist_error : option Error
}.

(** *** External interfaces (section 6) *)

(** Modelled from the spec: what one call of [scanner.scan(target)] comes
    back with: discovery records, a TransientScanError or an
    InvalidTargetError. *)
Inductive ScanReply :=
| Records (items : list string)
| ScanTransient
| ScanInvalidTarget.

(** Modelled from the spec: the Scanner capability.  A scanner has a state
    of its own; a call on a target yields the reply, the wall-clock time
    the call took, and the scanner's next state. *)
Definition Scanner (Sc : Type) : Type := string → Sc → ScanReply * Z * Sc.

(** What the remote service answers to a write. *)
Inductive WriteReply :=
| Written
| WriteUnreachable
| WriteRejected.

(** Modelled from the spec: the remote service behind ConfigStore.  A read
    yields the configuration records, or nothing when the service cannot
    be reached; a write persists a result and updates the fields last-run
    and last-status of its config. *)
Record ConfigStore (St : Type) := mkConfigStore {
  store_read : St → option (list ScanConfig);
  store_write : string → RunResult → St → WriteReply * St
}.
Arguments store_read {St} _ _.
Arguments store_write {St} _ _ _ _.

(** Modelled from the spec: the configuration of the engine (section 9
    leaves the numbers to configuration).  The concurrency limit is a
    positive number of workers. *)
Record Settings := mkSettings {
  timeout : Z;
  maxRetries : nat;
  base_delay : Z;
  max_delay : Z;
  concurrencyLimit : positive
}.

(** *** 4.1 ScheduleEvaluator *)

Section ScheduleEvaluator.

(** The cron syntax is left open by the specification.  [cron_latest expr]
    is [None] for a malformed expression; otherwise it maps a time to the
    most recent scheduled occurrence at or before it, if there is one. *)
Variable cron_latest : string → option (Z → option Z).

(** Modelled from the spec: [isDue(config, now)], the four rules of
    section 4.1 in the order they are given; a malformed schedule spec
    fails with ConfigError. *)
Definition isDue (config : ScanConfig) (now : Z) : outcome Error bool :=
  if negb (enabled config) then Return false
  else
    match last_run config with
    | None => Return true
    | Some last =>
        match schedule_spec config with
        | FixedInterval interval => Return (interval <=? now - last)
        | CronLike expr =>
            match cron_latest expr with
            | None => Raise ConfigError
            | Some latest =>
                match latest now with
                | Some occurrence => Return (last <? occurrence)
                | None => Return false
                end
            end
        end
    end.

(** Modelled from the spec: how the caller reads [isDue]: a ConfigError
    is "treated as never-due (config is skipped, not crashed)". *)
Definition due_now (config : ScanConfig) (now : Z) : bool :=
  match isDue config now with
  | Return b => b
  | Raise _ => false
  end.

(** Modelled from the spec: step 2 of [tick],
    [due = [c for c in configs if isDue(c, now) and c.id not in inFlight]]. *)
Definition due_configs (configs : list ScanConfig) (now : Z)
    (inflight : gset string) : list ScanConfig :=
  filter (fun c => due_now c now = true ∧ id c ∉ inflight) configs.

End ScheduleEvaluator.

(** *** The state of the engine and of its collaborators *)

Section World.
Context {St Sc : Type}.

(** [store] and [scanner_state] belong to the collaborators; [clock] is
    the wall clock; [inFlight] is the Scheduler's in-flight set, [pending]
    the executions handed to the workers and not started, [running] the
    executions started and not completed. *)
Record World := mkWorld {
  store : St;
  scanner_state : Sc;
  clock : Z;
  inFlight : gset string;
  pending : list ScanConfig;
  running : list ScanConfig
}.

Definition set_store (s : St) (w : World) : World :=
  {| store := s; scanner_state := scanner_state w; clock := clock w;
     inFlight := inFlight w; pending := pending w; running := running w |}.

Definition set_scanner_state (sc : Sc) (w : World) : World :=
  {| store := store w; scanner_state := sc; clock := clock w;
     inFlight := inFlight w; pending := pending w; running := running w |}.

Definition advance_clock (d : Z) (w : World) : World :=
  {| store := store w; scanner_state := scanner_state w; clock := clock w + d;
     inFlight := inFlight w; pending := pending w; running := running w |}.

Definition set_scheduler (inflight : gset string) (p r : list ScanConfig)
    (w : World) : World :=
  {| store := store w; scanner_state := scanner_state w; clock := clock w;
     inFlight := inflight; pending := p; running := r |}.
End World.
Arguments World : clear implicits.

(** *** 4.2 RunExecutor *)

Section RunExecutor.
Context {St Sc : Type}.

(** The back-off delays of the executor: the first one and the cap. *)
Variable settings : Settings.

Definition EngineM (A : Type) : Type := Eff Error (World St Sc) A.

(** The capped first delay, and the step from one delay to the next:
    "base delay doubling each attempt, capped at a configurable maximum". *)
Definition first_delay : Z := Z.min (base_delay settings) (max_delay settings).
Definition next_delay (delay : Z) : Z := Z.min (2 * delay) (max_delay settings).

Definition sleep (delay : Z) : EngineM unit :=
  emit (EvSleep delay) ;;
  modify (advance_clock delay).

(** Modelled from the spec: one attempt of the executor.  It invokes
    [scanner.scan(target)] under the wall-clock timeout: an attempt that
    takes longer than the timeout is cut off there and fails with
    TimeoutError; otherwise it yields the records or fails with the
    scanner's error. *)
Definition attempt (scanner : Scanner Sc) (timeout : Z) (tgt : string)
    : EngineM (list string) :=
  emit (EvScan tgt) ;;
  let* w := get in
  match scanner tgt (scanner_state w) with
  | (reply, duration, sc) =>
      if timeout <? duration then
        modify (fun w => advance_clock timeout (set_scanner_state sc w)) ;;
        raise TimeoutError
      else
        modify (fun w => advance_clock duration (set_scanner_state sc w)) ;;
        match reply with
        | Records items => ret items
        | ScanTransient => raise TransientScanError
        | ScanInvalidTarget => raise InvalidTargetError
        end
  end.

(** The failures the executor retries: "network/timeout errors". *)
Definition transient (e : Error) : bool :=
  match e with
  | TransientScanError | TimeoutError => true
  | _ => false
  end.

(** Modelled from the spec: the retry loop.  A transient failure is
    retried after the back-off delay while retries are left; any other
    failure, and a transient one with no retry left, ends the loop. *)
Fixpoint attempts (scanner : Scanner Sc) (timeout : Z) (tgt : string)
    (retries_left : nat) (delay : Z) : EngineM (list string) :=
  catch (attempt scanner timeout tgt)
    (fun e =>
       if transient e then
         match retries_left with
         | O => raise e
         | S k =>
             sleep delay ;;
             attempts scanner timeout tgt k (next_delay delay)
         end
       else raise e).

(** Modelled from the spec: [run(config, scanner, timeout, maxRetries)].
    Exactly one RunResult comes out; its status is that of the last
    attempt: SUCCESS, TIMEOUT when the last failure was a timeout, FAILURE
    otherwise. *)
Definition run (config : ScanConfig) (scanner : Scanner Sc) (timeout : Z)
    (maxRetries : nat) : EngineM RunResult :=
  let* w0 := get in
  catch
    (let* items := attempts scanner timeout (target config) maxRetries first_delay in
     let* w1 := get in
     ret {| config_id := id config; start_time := clock w0; end_time := clock w1;
            status := SUCCESS; discovered_items := items;
            error_detail := None; persist_error := None |})
    (fun e =>
       let* w1 := get in
       ret {| config_id := id config; start_time := clock w0; end_time := clock w1;
              status := if decide (e = TimeoutError) then TIMEOUT else FAILURE;
              discovered_items := [];
              error_detail := Some e; persist_error := None |}).

End RunExecutor.

(** *** 4.3 Scheduler *)

(** Removes one occurrence of [c], the first one. *)
Fixpoint remove_first (c : ScanConfig) (l : list ScanConfig) : list ScanConfig :=
  match l with
  | [] => []
  | c' :: rest => if decide (c' = c) then rest else c' :: remove_first c rest
  end.

Section Scheduler.
Context {St Sc : Type}.

(** The collaborators and the configuration the Scheduler is built with. *)
Variable cron_latest : string → option (Z → option Z).
Variable config_store : ConfigStore St.
Variable scanner : Scanner Sc.
Variable settings : Settings.

Local Abbreviation M := (@EngineM St Sc).

(** Modelled from the spec: [ConfigStore.load()], which "fails with
    StoreUnavailableError on unreachable service". *)
Definition load : M (list ScanConfig) :=
  emit EvStoreLoad ;;
  let* w := get in
  match store_read config_store (store w) with
  | Some configs => ret configs
  | None => raise StoreUnavailableError
  end.

(** Modelled from the spec: [ConfigStore.saveResult(configId, result)],
    which fails with StoreUnavailableError on unreachable service and
    with StoreWriteError on write rejection. *)
Definition saveResult (configId : string) (result : RunResult) : M unit :=
  emit (EvStoreSave configId) ;;
  let* w := get in
  match store_write config_store configId result (store w) with
  | (Written, s) => modify (set_store s)
  | (WriteUnreachable, s) => modify (set_store s) ;; raise StoreUnavailableError
  | (WriteRejected, s) => modify (set_store s) ;; raise StoreWriteError
  end.

(** Modelled from the spec: step 3 of [tick], handing one due config to
    the workers: its id joins [inFlight] before the execution starts. *)
Definition dispatch (c : ScanConfig) : M unit :=
  emit (EvDispatch (id c)) ;;
  modify (fun w =>
    set_scheduler ({[id c]} ∪ inFlight w) (pending w ++ [c]) (running w) w).

(** Modelled from the spec: steps 1 to 3 of [tick]: load the configs (or
    give up with StoreUnavailableError), filter the due ones against the
    in-flight set as it is then, and dispatch each of them. *)
Definition begin_tick (now : Z) : M unit :=
  let* configs := load in
  let* w := get in
  for_each dispatch (due_configs cron_latest configs now (inFlight w)) ;;
  ret tt.

(** Modelled from the spec: the worker-pool discipline: the next pending
    execution starts when fewer than [concurrencyLimit] are running. *)
Definition start_next : M unit :=
  let* w := get in
  match pending w with
  | [] => ret tt
  | c :: rest =>
      if decide (length (running w) < Pos.to_nat (concurrencyLimit settings))%nat then
        emit (EvRun (id c)) ;;
        modify (set_scheduler (inFlight w) rest (running w ++ [c]))
      else ret tt
  end.

(** Modelled from the spec: the completion of a running execution (steps
    3 and 4): the RunExecutor produces its result, the id leaves
    [inFlight], and the result is persisted; a persistence failure is
    reported in the result's error field and goes no further. *)
Definition complete (c : ScanConfig) : M RunResult :=
  let* res := run settings c scanner (timeout settings) (maxRetries settings) in
  modify (fun w =>
    set_scheduler (inFlight w ∖ {[id c]}) (pending w) (remove_first c (running w)) w) ;;
  catch (saveResult (id c) res ;; ret res)
    (fun e =>
       ret {| config_id := config_id res; start_time := start_time res;
              end_time := end_time res; status := status res;
              discovered_items := discovered_items res;
              error_detail := error_detail res; persist_error := Some e |}).

(** One round of the worker pool: fill the free workers, then await the
    running executions. *)
Fixpoint start_up_to (n : nat) : M unit :=
  match n with
  | O => ret tt
  | S k => start_next ;; start_up_to k
  end.

Definition run_round : M (list RunResult) :=
  start_up_to (Pos.to_nat (concurrencyLimit settings)) ;;
  let* w := get in
  for_each complete (running w).

Fixpoint drain (rounds : nat) : M (list RunResult) :=
  match rounds with
  | O => ret []
  | S k =>
      let* w := get in
      match pending w, running w with
      | [], [] => ret []
      | _, _ =>
          let* done := run_round in
          let* rest := drain k in
          ret (done ++ rest)
      end
  end.

(** Modelled from the spec: [tick(now)], one poll/execute/persist cycle
    (steps 1 to 5), with the executions of a round taken in the order
    they were dispatched.  The first round may find the workers busy with
    earlier executions; every later round starts at least one pending
    execution, so one round more than there are pending executions
    empties the pool. *)
Definition tick (now : Z) : M (list RunResult) :=
  begin_tick now ;;
  let* w := get in
  drain (S (length (pending w))).

(** The Scheduler as a transition system, for what happens between the
    calls: a tick may begin while executions of an earlier tick are
    outstanding, workers start pending executions one at a time, and
    running executions complete in any order.

    [listing_unique] is the data model's "identifier (unique string)":
    the records the store lists carry pairwise distinct identifiers. *)
Definition listing_unique (w : World St Sc) : Prop :=
  ∀ configs, store_read config_store (store w) = Some configs →
             NoDup (id <$> configs).

Inductive step : World St Sc → World St Sc → Prop :=
| step_tick now w :
    listing_unique w →
    step w (state_of (begin_tick now w))
| step_start w :
    step w (state_of (start_next w))
| step_complete c w :
    c ∈ running w →
    step w (state_of (complete c w)).

(** The Scheduler starts with nothing in flight. *)
Definition idle (w : World St Sc) : Prop :=
  inFlight w = ∅ ∧ pending w = [] ∧ running w = [].

Inductive reachable : World St Sc → Prop :=
| reachable_idle w : idle w → reachable w
| reachable_step w w' : reachable w → step w w' → reachable w'.

(** The executions in flight: dispatched and not completed. *)
Definition in_flight_executions (w : World St Sc) : list ScanConfig :=
  pending w ++ running w.

(** The number of executions in flight for the config identifier [X]. *)
Definition executions_of (X : string) (l : list ScanConfig) : nat :=
  length (filter (fun c => id c = X) l).

End Scheduler.

(** *** In-memory collaborators

    Stand-ins for the remote store, the scanner and the cron syntax, used
    to run the engine on concrete inputs. *)

Record MemStore := mkMemStore {
  up : bool;
  configs : list ScanConfig;
  saved : list RunResult
}.

(** The update of last-run and last-status that comes with a saved result. *)
Definition record_run (res : RunResult) (c : ScanConfig) : ScanConfig :=
  if decide (id c = config_id res) then
    {| id := id c; target := target c; schedule_spec := schedule_spec c;
       enabled := enabled c; last_run := Some (start_time res);
       last_status := match status res with
                      | SUCCESS => LAST_SUCCESS
                      | _ => LAST_FAILURE
                      end |}
  else c.

Definition mem_config_store : ConfigStore MemStore :=
  {| store_read := fun s => if up s then Some (configs s) else None;
     store_write := fun _ res s =>
       if up s then
         (Written, {| up := true; configs := record_run res <$> configs s;
                      saved := saved s ++ [res] |})
       else (WriteUnreachable, s) |}.

(** A scanner that plays back a script of replies and durations, and finds
    nothing once the script is over. *)
Definition scripted_scanner : Scanner (list (ScanReply * Z)) :=
  fun _ script =>
    match script with
    | [] => (Records [], 0, [])
    | (reply, duration) :: rest => (reply, duration, rest)
    end.

(** A cron syntax with one well-formed expression, the start of every hour. *)
Definition hourly_cron (expr : string) : option (Z → option Z) :=
  if decide (expr = "@hourly") then Some (fun now => Some (now - now `mod` 3600))
  else None.

Definition demo_settings : Settings :=
  {| timeout := 30; maxRetries := 3; base_delay := 1; max_delay := 8;
     concurrencyLimit := 2 |}.

Definition demo_config (name : string) (on : bool) (last : option Z) : ScanConfig :=
  {| id := name; target := "10.0.0.0/24"; schedule_spec := FixedInterval 60;
     enabled := on; last_run := last; last_status := NEVER_RUN |}.

Definition demo_world (is_up : bool) (cs : list ScanConfig)
    (script : list (ScanReply * Z)) : World MemStore (list (ScanReply * Z)) :=
  {| store := {| up := is_up; configs := cs; saved := [] |};
     scanner_state := script; clock := 0;
     inFlight := ∅; pending := []; running := [] |}.

(** *** Vocabulary of the statements *)

Section Vocabulary.
Context {St Sc : Type}.

(** How many of the events are invocations of [scanner.scan]; how many
    are executions handed to or started by the workers. *)
Definition scan_invocations (evs : list event) : nat :=
  length (filter (fun e => is_scan e = true) evs).

Definition executor_invocations (evs : list event) : nat :=
  length (filter (fun e => is_dispatch e = true ∨ is_run e = true) evs).

(** The Scheduler's part of the state. *)
Definition scheduler_of (w : World St Sc)
    : gset string * list ScanConfig * list ScanConfig :=
  (inFlight w, pending w, running w).

(** The computation leaves the Scheduler's part of the state as it is. *)
Definition keeps_scheduler {A} (c : Eff Error (World St Sc) A) : Prop :=
  ∀ w, scheduler_of (state_of (c w)) = scheduler_of w.

(** The computation ends with a value, never with an error. *)
Definition always_returns {A} (c : Eff Error (World St Sc) A) : Prop :=
  ∀ w, ∃ a, result_of (c w) = Return a.

End Vocabulary.

End Engine.

(** ** Properties of the sources *)

Module AgentProofs.
Import Agent.

Section WithStore.
Context {Remote : Type}.
Variable respond : Query → Remote → outcome exn Response * Remote.

Lemma echo_prints_only (line : string) :
  prints_only (Remote := Remote) (echo line) line.
Proof.
  intros r. split; [reflexivity|]. split; [reflexivity|]. split; [reflexivity|].
  intros e He. apply list_elem_of_singleton in He. subst e. repeat split.
Qed.

(** C1: each of the three CLI commands [list_configs], [run] and
    [schedule] does no scanning, no scheduling and no store access: on
    every invocation it prints its one placeholder line and returns. *)
Theorem cli_commands_print_placeholder_only :
  prints_only (Remote := Remote) list_configs "Placeholder: list-configs command" ∧
  (∀ config_id,
     prints_only (Remote := Remote) (run config_id)
       ("Placeholder: run scan for " +:+ config_id)) ∧
  prints_only (Remote := Remote) schedule "Placeholder: schedule scans".
Proof.
  split; [|split]; [|intros config_id|]; apply echo_prints_only.
Qed.

(** What [load_configs] does, in one equation. *)
Lemma load_configs_unfold (r : Remote) :
  load_configs respond r =
    (outcome_map data (respond scan_configs_query r).1,
     (respond scan_configs_query r).2,
     [EvStoreRequest scan_configs_query]).
Proof.
  unfold load_configs, bind, execute, select, table, ret, scan_configs_query; simpl.
  destruct (respond _ r) as [[resp|e] r']; simpl; reflexivity.
Qed.

(** C2: in every state of the remote store, [load_configs] sends one
    request, for all columns of the table [scan_configs], and returns the
    rows of the store's response. *)
Theorem load_configs_fetches_scan_configs (r : Remote) :
  events_of (load_configs respond r) =
    [EvStoreRequest {| q_table := "scan_configs"; q_columns := Some "*" |}] ∧
  result_of (load_configs respond r) =
    outcome_map data (respond {| q_table := "scan_configs"; q_columns := Some "*" |} r).1 ∧
  state_of (load_configs respond r) =
    (respond {| q_table := "scan_configs"; q_columns := Some "*" |} r).2.
Proof.
  rewrite load_configs_unfold. repeat split.
Qed.

(** C3, as the code has it: [list_configs] never invokes [load_configs].
    It sends no request to the store, and what it prints is the fixed
    placeholder line whatever the store holds. *)
Theorem list_configs_ignores_store (r1 r2 : Remote) :
  ¬ invokes_load_configs list_configs r1 ∧
  (∀ q, EvStoreRequest q ∉ events_of (list_configs r1)) ∧
  events_of (list_configs r1) = events_of (list_configs r2) ∧
  stdout_of (events_of (list_configs r1)) =
    "Placeholder: list-configs command" +:+ newline.
Proof.
  assert (Hq : ∀ q, EvStoreRequest q ∉ events_of (list_configs r1)).
  { intros q Hin. apply list_elem_of_singleton in Hin. discriminate. }
  repeat split; try reflexivity; [|exact Hq].
  intros Hin. exact (Hq _ Hin).
Qed.

(** C4, as the code has it: when the request to the store fails,
    [load_configs] fails with the very exception the client raised; it
    neither catches nor translates it. *)
Theorem load_configs_propagates_client_error (r r' : Remote) (e : exn) :
  respond scan_configs_query r = (Raise e, r') →
  load_configs respond r = (Raise e, r', [EvStoreRequest scan_configs_query]).
Proof.
  intros H. rewrite load_configs_unfold, H. reflexivity.
Qed.

(** C9: [load_configs] returns the [data] field of the response as it
    is: every row stays, at its position, whatever it holds; rows of
    disabled configurations and malformed rows are among them. *)
Theorem load_configs_returns_data_verbatim (r r' : Remote) (resp : Response) :
  respond scan_configs_query r = (Return resp, r') →
  ∃ rows,
    result_of (load_configs respond r) = Return rows ∧
    rows = data resp ∧
    length rows = length (data resp) ∧
    (∀ i row, data resp !! i = Some row → rows !! i = Some row) ∧
    (∀ row, row ∈ data resp → row_disabled row ∨ row_malformed row → row ∈ rows).
Proof.
  intros H. exists (data resp).
  rewrite load_configs_unfold, H. simpl. auto.
Qed.


End WithStore.

(** *** The statements on concrete stores *)

(** The claim C3 as written fails: on a store that holds three rows,
    [list_configs] sends no request, and it prints the same on a store
    that holds none although [load_configs] returns different rows. *)
Lemma list_configs_does_not_load :
  ¬ invokes_load_configs list_configs demo_store ∧
  result_of (load_configs mem_respond demo_store) ≠
    result_of (load_configs mem_respond empty_store) ∧
  events_of (list_configs demo_store) = events_of (list_configs empty_store).
Proof.
  split; [|split].
  - unfold invokes_load_configs. intros Hin.
    apply list_elem_of_singleton in Hin. discriminate.
  - rewrite !load_configs_unfold. vm_compute. discriminate.
  - reflexivity.
Qed.

(** The claim C4 as written fails: with a client that raises its transport
    error when the service cannot be reached, [load_configs] fails with
    that error, of class ConnectError, not with StoreUnavailableError. *)
Lemma load_configs_unreachable_not_StoreUnavailableError :
  fails_with "ConnectError" (load_configs mem_respond) down_store ∧
  ¬ fails_with "StoreUnavailableError" (load_configs mem_respond) down_store.
Proof.
  split.
  - exists ConnectError. split; reflexivity.
  - intros [e [Hraise Hkind]].
    rewrite load_configs_unfold in Hraise. vm_compute in Hraise.
    injection Hraise as <-. discriminate.
Qed.

Lemma load_configs_propagates_client_error_witness :
  mem_respond scan_configs_query down_store = (Raise ConnectError, down_store) ∧
  load_configs mem_respond down_store =
    (Raise ConnectError, down_store, [EvStoreRequest scan_configs_query]).
Proof.
  split; [reflexivity|].
  apply (load_configs_propagates_client_error mem_respond down_store down_store ConnectError).
  reflexivity.
Defined.

Lemma load_configs_returns_data_verbatim_witness :
  mem_respond scan_configs_query demo_store =
    (Return {| data := demo_rows; count := None |}, demo_store) ∧
  ∃ rows,
    result_of (load_configs mem_respond demo_store) = Return rows ∧
    rows = demo_rows ∧
    length rows = 3%nat ∧
    (∀ i row, demo_rows !! i = Some row → rows !! i = Some row) ∧
    (∀ row, row ∈ demo_rows → row_disabled row ∨ row_malformed row → row ∈ rows).
Proof.
  assert (H : mem_respond scan_configs_query demo_store =
                (Return {| data := demo_rows; count := None |}, demo_store))
    by (vm_compute; reflexivity).
  split; [exact H|].
  exact (load_configs_returns_data_verbatim mem_respond demo_store demo_store
           {| data := demo_rows; count := None |} H).
Defined.

(** The rows that come back on the concrete store include the disabled one
    and the one without columns. *)
Example load_configs_keeps_disabled_and_malformed :
  result_of (load_configs mem_respond demo_store) = Return demo_rows ∧
  row_disabled (config_row "c2" false) ∧ row_malformed (∅ : Row) ∧
  config_row "c2" false ∈ demo_rows ∧ (∅ : Row) ∈ demo_rows.
Proof.
  split; [rewrite load_configs_unfold; vm_compute; reflexivity|].
  split; [vm_compute; reflexivity|].
  split; [reflexivity|].
  unfold demo_rows. split.
  - apply list_elem_of_further, list_elem_of_here.
  - do 2 apply list_elem_of_further. apply list_elem_of_here.
Qed.

Lemma count_newlines_app (s t : string) :
  count_newlines (s +:+ t) = (count_newlines s + count_newlines t)%nat.
Proof.
  induction s as [|a s IH]; simpl; [reflexivity|].
  rewrite IH. lia.
Qed.

(** When [config_id] holds no newline, what [run] prints is one line. *)
Lemma run_prints_one_line {Remote : Type} (config_id : string) (r : Remote) :
  count_newlines config_id = 0%nat →
  count_newlines (stdout_of (events_of (run config_id r))) = 1%nat.
Proof.
  intros H. simpl.
  change (count_newlines
            ("Placeholder: run scan for " +:+ (config_id +:+ newline)) = 1%nat).
  rewrite !count_newlines_app, H. reflexivity.
Qed.

End AgentProofs.

(** ** Properties of the engine *)

Module EngineProofs.
Import Engine.

(** *** The effect monad *)

Section EffectLemmas.
Context {E St : Type}.
Implicit Types s : St.

Lemma bind_return {A B} (c : Eff E St A) (k : A → Eff E St B) s a s1 evs1 :
  c s = (Return a, s1, evs1) →
  bind c k s = (result_of (k a s1), state_of (k a s1), evs1 ++ events_of (k a s1)).
Proof.
  intros H. unfold bind. rewrite H.
  destruct (k a s1) as [[o s2] evs2]. reflexivity.
Qed.

Lemma bind_raise {A B} (c : Eff E St A) (k : A → Eff E St B) s e s1 evs1 :
  c s = (Raise e, s1, evs1) →
  bind c k s = (Raise e, s1, evs1).
Proof. intros H. unfold bind. rewrite H. reflexivity. Qed.

Lemma catch_return {A} (c : Eff E St A) (h : E → Eff E St A) s a s1 evs1 :
  c s = (Return a, s1, evs1) →
  catch c h s = (Return a, s1, evs1).
Proof. intros H. unfold catch. rewrite H. reflexivity. Qed.

Lemma catch_raise {A} (c : Eff E St A) (h : E → Eff E St A) s e s1 evs1 :
  c s = (Raise e, s1, evs1) →
  catch c h s = (result_of (h e s1), state_of (h e s1), evs1 ++ events_of (h e s1)).
Proof.
  intros H. unfold catch. rewrite H.
  destruct (h e s1) as [[o s2] evs2]. reflexivity.
Qed.

Lemma state_of_bind_ret {A B} (c : Eff E St A) (f : A → B) s :
  state_of (bind c (fun a => ret (f a)) s) = state_of (c s).
Proof.
  unfold bind. destruct (c s) as [[[a|e] s1] evs1]; reflexivity.
Qed.

Lemma state_of_bind {A B} (c : Eff E St A) (k : A → Eff E St B) s :
  state_of (bind c k s) =
    match result_of (c s) with
    | Return a => state_of (k a (state_of (c s)))
    | Raise _ => state_of (c s)
    end.
Proof.
  unfold bind. destruct (c s) as [[[a|e] s1] evs1]; cbn; [|reflexivity].
  destruct (k a s1) as [[o s2] evs2]. reflexivity.
Qed.

Lemma result_of_bind {A B} (c : Eff E St A) (k : A → Eff E St B) s :
  result_of (bind c k s) =
    match result_of (c s) with
    | Return a => result_of (k a (state_of (c s)))
    | Raise e => Raise e
    end.
Proof.
  unfold bind. destruct (c s) as [[[a|e] s1] evs1]; cbn; [|reflexivity].
  destruct (k a s1) as [[o s2] evs2]. reflexivity.
Qed.

End EffectLemmas.

Create HintDb keeps.

Section WithCollaborators.
Context {St Sc : Type}.
Variable cron_latest : string → option (Z → option Z).
Variable config_store : ConfigStore St.
Variable scanner : Scanner Sc.
Variable settings : Settings.

Implicit Types w : World St Sc.

(** *** ScheduleEvaluator *)

(** C7: a config whose enabled flag is false is never due, at any time. *)
Theorem isDue_disabled_is_false (config : ScanConfig) (now : Z) :
  enabled config = false →
  isDue cron_latest config now = Return false.
Proof.
  intros H. unfold isDue. rewrite H. reflexivity.
Qed.

(** *** RunExecutor *)

Lemma attempt_events (timeout : Z) (tgt : string) w :
  events_of (attempt scanner timeout tgt w) = [EvScan tgt].
Proof.
  unfold attempt, bind, emit, get, modify, raise, ret. simpl.
  destruct (scanner tgt (scanner_state w)) as [[reply duration] sc].
  destruct (timeout <? duration); [reflexivity|].
  destruct reply; reflexivity.
Qed.

Lemma scan_invocations_app (evs1 evs2 : list event) :
  scan_invocations (evs1 ++ evs2) = (scan_invocations evs1 + scan_invocations evs2)%nat.
Proof. unfold scan_invocations. rewrite filter_app, length_app. reflexivity. Qed.

Lemma scan_invocations_scan (tgt : string) (evs : list event) :
  scan_invocations (EvScan tgt :: evs) = S (scan_invocations evs).
Proof. unfold scan_invocations. rewrite filter_cons_True by reflexivity. reflexivity. Qed.

Lemma scan_invocations_other (e : event) (evs : list event) :
  is_scan e = false → scan_invocations (e :: evs) = scan_invocations evs.
Proof.
  intros H. unfold scan_invocations.
  rewrite filter_cons_False by (rewrite H; discriminate). reflexivity.
Qed.

Lemma attempts_unfold (timeout : Z) (tgt : string) (retries_left : nat) (delay : Z) :
  attempts settings scanner timeout tgt retries_left delay =
    catch (attempt scanner timeout tgt)
      (fun e =>
         if transient e then
           match retries_left return Eff Error (World St Sc) (list string) with
           | O => raise e
           | S k =>
               sleep delay ;;
               attempts settings scanner timeout tgt k (next_delay settings delay)
           end
         else raise e).
Proof. destruct retries_left; reflexivity. Qed.

(** The retry loop scans once per attempt: at least once, and at most
    once more than it had retries left. *)
Lemma attempts_scan_invocations (timeout : Z) (tgt : string) (retries_left : nat) :
  ∀ delay w,
    (1 ≤ scan_invocations (events_of (attempts settings scanner timeout tgt retries_left delay w))
       ≤ retries_left + 1)%nat.
Proof.
  assert (Hone : scan_invocations [EvScan tgt] = 1%nat)
    by (rewrite scan_invocations_scan; reflexivity).
  induction retries_left as [|k IH]; intros delay w; rewrite attempts_unfold.
  all: pose proof (attempt_events timeout tgt w) as Hev.
  all: destruct (attempt scanner timeout tgt w) as [[[items|e] w1] evs1] eqn:Hatt.
  all: simpl in Hev; subst evs1.
  - rewrite (catch_return _ _ _ _ _ _ Hatt). simpl. lia.
  - rewrite (catch_raise _ _ _ _ _ _ Hatt).
    destruct (transient e); simpl; lia.
  - rewrite (catch_return _ _ _ _ _ _ Hatt). simpl. lia.
  - rewrite (catch_raise _ _ _ _ _ _ Hatt).
    destruct (transient e); [|simpl; lia].
    specialize (IH (next_delay settings delay) (advance_clock delay w1)).
    unfold sleep, bind, emit, modify. simpl.
    destruct (attempts settings scanner timeout tgt k _ _) as [[o w2] evs2].
    simpl in *.
    rewrite !scan_invocations_scan.
    rewrite !(scan_invocations_other (EvSleep delay)) by reflexivity.
    lia.
Qed.

Lemma run_events (config : ScanConfig) (timeout : Z) (maxRetries : nat) w :
  events_of (run settings config scanner timeout maxRetries w) =
    events_of (attempts settings scanner timeout (target config) maxRetries
                 (first_delay settings) w).
Proof.
  unfold run, bind, catch, get, ret. simpl.
  destruct (attempts settings scanner timeout (target config) maxRetries _ w)
    as [[[items|e] w1] evs1]; simpl; rewrite ?app_nil_r; reflexivity.
Qed.

(** C8: one invocation of [run] invokes [scanner.scan] at most
    [maxRetries + 1] times, for every config, scanner, timeout and
    [maxRetries], from every state. *)
Theorem run_scan_invocations_bounded
    (config : ScanConfig) (timeout : Z) (maxRetries : nat) w :
  (scan_invocations (events_of (run settings config scanner timeout maxRetries w))
     ≤ maxRetries + 1)%nat.
Proof.
  rewrite run_events. apply attempts_scan_invocations.
Qed.

(** [run] always produces its RunResult. *)
Lemma run_always_returns (config : ScanConfig) (timeout : Z) (maxRetries : nat) :
  always_returns (St := St) (run settings config scanner timeout maxRetries).
Proof.
  intros w. unfold run, bind, catch, get, ret. simpl.
  destruct (attempts settings scanner timeout (target config) maxRetries _ w)
    as [[[items|e] w1] evs1]; simpl; eauto.
Qed.

(** *** Scheduler: a tick whose store read fails *)

Lemma load_unfold w :
  load config_store w =
    match store_read config_store (store w) with
    | Some configs => (Return configs, w, [EvStoreLoad])
    | None => (Raise StoreUnavailableError, w, [EvStoreLoad])
    end.
Proof.
  unfold load, bind, emit, get, ret, raise. simpl.
  destruct (store_read config_store (store w)); reflexivity.
Qed.

(** The store read fails exactly when the service cannot be reached, and
    then with StoreUnavailableError. *)
Lemma load_failure w e :
  result_of (load config_store w) = Raise e →
  store_read config_store (store w) = None ∧ e = StoreUnavailableError.
Proof.
  rewrite load_unfold.
  destruct (store_read config_store (store w)); simpl; intros H.
  - discriminate.
  - injection H as <-. split; reflexivity.
Qed.

(** C5: when the store read of a tick fails, [tick] ends with
    StoreUnavailableError, no execution is dispatched or started, the
    scanner is not invoked, and the state of the engine is as before. *)
Theorem tick_abandoned_on_store_failure (now : Z) w (e : Error) :
  result_of (load config_store w) = Raise e →
  result_of (tick cron_latest config_store scanner settings now w) =
    Raise StoreUnavailableError ∧
  state_of (tick cron_latest config_store scanner settings now w) = w ∧
  executor_invocations
    (events_of (tick cron_latest config_store scanner settings now w)) = 0%nat ∧
  scan_invocations
    (events_of (tick cron_latest config_store scanner settings now w)) = 0%nat.
Proof.
  intros Hfail. apply load_failure in Hfail as [Hread _].
  assert (Hbegin : begin_tick cron_latest config_store now w =
                     (Raise StoreUnavailableError, w, [EvStoreLoad])).
  { unfold begin_tick. apply bind_raise. rewrite load_unfold, Hread. reflexivity. }
  unfold tick. rewrite (bind_raise _ _ _ _ _ _ Hbegin).
  repeat split.
Qed.

(** *** What leaves the Scheduler's state alone *)

Lemma keeps_ret {A} (a : A) : keeps_scheduler (St := St) (Sc := Sc) (ret a).
Proof. intros w. reflexivity. Qed.

Lemma keeps_raise {A} (e : Error) :
  keeps_scheduler (St := St) (Sc := Sc) (raise (A := A) e).
Proof. intros w. reflexivity. Qed.

Lemma keeps_emit (ev : event) : keeps_scheduler (St := St) (Sc := Sc) (emit ev).
Proof. intros w. reflexivity. Qed.

Lemma keeps_get : keeps_scheduler (St := St) (Sc := Sc) get.
Proof. intros w. reflexivity. Qed.

Lemma keeps_modify (f : World St Sc → World St Sc) :
  (∀ w, scheduler_of (f w) = scheduler_of w) → keeps_scheduler (modify f).
Proof. intros Hf w. apply Hf. Qed.

Lemma keeps_bind {A B} (c : Eff Error (World St Sc) A)
    (k : A → Eff Error (World St Sc) B) :
  keeps_scheduler c → (∀ a, keeps_scheduler (k a)) → keeps_scheduler (bind c k).
Proof.
  intros Hc Hk w. specialize (Hc w). unfold bind.
  destruct (c w) as [[[a|e] w1] evs1]; simpl in *; [|exact Hc].
  specialize (Hk a w1). destruct (k a w1) as [[o w2] evs2]; simpl in *.
  congruence.
Qed.

Lemma keeps_catch {A} (c : Eff Error (World St Sc) A)
    (h : Error → Eff Error (World St Sc) A) :
  keeps_scheduler c → (∀ e, keeps_scheduler (h e)) → keeps_scheduler (catch c h).
Proof.
  intros Hc Hh w. specialize (Hc w). unfold catch.
  destruct (c w) as [[[a|e] w1] evs1]; simpl in *; [exact Hc|].
  specialize (Hh e w1). destruct (h e w1) as [[o w2] evs2]; simpl in *.
  congruence.
Qed.

#[local] Hint Resolve keeps_ret keeps_raise keeps_emit keeps_get
  keeps_bind keeps_catch : keeps.

Lemma keeps_sleep (delay : Z) : keeps_scheduler (St := St) (Sc := Sc) (sleep delay).
Proof.
  unfold sleep. apply keeps_bind; [auto with keeps|].
  intros _. apply keeps_modify. reflexivity.
Qed.

Lemma keeps_attempt (timeout : Z) (tgt : string) :
  keeps_scheduler (St := St) (attempt scanner timeout tgt).
Proof.
  unfold attempt. apply keeps_bind; [auto with keeps|]. intros _.
  apply keeps_bind; [auto with keeps|]. intros w.
  destruct (scanner tgt (scanner_state w)) as [[reply duration] sc].
  destruct (timeout <? duration).
  - apply keeps_bind; [apply keeps_modify; reflexivity | auto with keeps].
  - apply keeps_bind; [apply keeps_modify; reflexivity |].
    intros _. destruct reply; auto with keeps.
Qed.

Lemma keeps_attempts (timeout : Z) (tgt : string) (retries_left : nat) :
  ∀ delay, keeps_scheduler (St := St)
             (attempts settings scanner timeout tgt retries_left delay).
Proof.
  induction retries_left as [|k IH]; intros delay; rewrite attempts_unfold.
  all: apply keeps_catch; [apply keeps_attempt|].
  all: intros e; destruct (transient e); auto with keeps.
  all: apply keeps_bind; [apply keeps_sleep | intros _; apply IH].
Qed.

Lemma keeps_run (config : ScanConfig) (timeout : Z) (maxRetries : nat) :
  keeps_scheduler (St := St) (run settings config scanner timeout maxRetries).
Proof.
  unfold run. apply keeps_bind; [auto with keeps|]. intros w0.
  apply keeps_catch.
  - apply keeps_bind; [apply keeps_attempts|]. intros items.
    apply keeps_bind; auto with keeps.
  - intros e. apply keeps_bind; auto with keeps.
Qed.

Lemma keeps_saveResult (configId : string) (result : RunResult) :
  keeps_scheduler (Sc := Sc) (saveResult config_store configId result).
Proof.
  unfold saveResult. apply keeps_bind; [auto with keeps|]. intros _.
  apply keeps_bind; [auto with keeps|]. intros w.
  destruct (store_write config_store configId result (store w)) as [[| |] s].
  - apply keeps_modify. reflexivity.
  - apply keeps_bind; [apply keeps_modify; reflexivity | auto with keeps].
  - apply keeps_bind; [apply keeps_modify; reflexivity | auto with keeps].
Qed.

(** *** What the Scheduler's operations do to its state *)

Lemma dispatch_unfold (c : ScanConfig) w :
  dispatch c w =
    (Return tt,
     set_scheduler ({[id c]} ∪ inFlight w) (pending w ++ [c]) (running w) w,
     [EvDispatch (id c)]).
Proof. reflexivity. Qed.

Lemma for_each_dispatch_returns (l : list ScanConfig) :
  ∀ w, ∃ us, result_of (for_each (St := World St Sc) dispatch l w) = Return us.
Proof.
  induction l as [|c l IH]; intros w; [cbn; eauto|].
  cbn [for_each]. rewrite result_of_bind, dispatch_unfold.
  cbn [result_of state_of fst snd]. rewrite result_of_bind.
  destruct (IH (set_scheduler ({[id c]} ∪ inFlight w) (pending w ++ [c]) (running w) w))
    as [us ->].
  cbn. eauto.
Qed.



Lemma start_next_scheduler w :
  scheduler_of (state_of (start_next settings w)) =
    match pending w with
    | c :: rest =>
        if decide (length (running w) < Pos.to_nat (concurrencyLimit settings))%nat
        then (inFlight w, rest, running w ++ [c])
        else scheduler_of w
    | [] => scheduler_of w
    end.
Proof.
  unfold start_next, bind, get. cbn.
  destruct (pending w) as [|c rest] eqn:Hp; [reflexivity|].
  destruct (decide _); reflexivity.
Qed.

Lemma complete_scheduler (c : ScanConfig) w :
  scheduler_of (state_of (complete config_store scanner settings c w)) =
    (inFlight w ∖ {[id c]}, pending w, remove_first c (running w)).
Proof.
  unfold complete.
  destruct (run_always_returns c (timeout settings) (maxRetries settings) w)
    as [res Hres].
  pose proof (keeps_run c (timeout settings) (maxRetries settings) w) as Hkeep.
  destruct (run settings c scanner (timeout settings) (maxRetries settings) w)
    as [[o w1] evs1] eqn:Hrun.
  cbn [result_of state_of fst snd] in Hres, Hkeep. subst o.
  rewrite (bind_return _ _ _ _ _ _ Hrun). cbn [state_of fst snd].
  set (w2 := set_scheduler (inFlight w1 ∖ {[id c]}) (pending w1)
               (remove_first c (running w1)) w1).
  rewrite (bind_return _ _ w1 tt w2 []) by reflexivity.
  cbn [state_of fst snd].
  rewrite keeps_catch.
  - unfold scheduler_of in *. subst w2.
    cbn [inFlight pending running set_scheduler].
    injection Hkeep as -> -> ->. reflexivity.
  - apply keeps_bind; [apply keeps_saveResult | auto with keeps].
  - auto with keeps.
Qed.

(** *** The invariant of the Scheduler *)















(** *** A tick is a run of the transition system

    The function [tick] goes through states of the transition system: it is
    a tick step followed by starts and completions. *)

Local Abbreviation steps :=
  (rtc (step cron_latest config_store scanner settings)).

Lemma start_up_to_steps (n : nat) :
  ∀ w, steps w (state_of (start_up_to settings n w)).
Proof.
  induction n as [|k IH]; intros w; [apply rtc_refl|].
  cbn [start_up_to]. rewrite state_of_bind.
  destruct (result_of (start_next settings w)).
  - eapply rtc_l; [apply step_start | apply IH].
  - apply rtc_once, step_start.
Qed.

Lemma for_each_complete_steps (l : list ScanConfig) :
  ∀ w, running w = l →
       steps w (state_of (for_each (complete config_store scanner settings) l w)).
Proof.
  induction l as [|c l IH]; intros w Hrun; [apply rtc_refl|].
  assert (Hstep : step cron_latest config_store scanner settings w
                    (state_of (complete config_store scanner settings c w))).
  { apply step_complete. rewrite Hrun. apply elem_of_cons. left. reflexivity. }
  cbn [for_each]. rewrite state_of_bind.
  destruct (result_of (complete config_store scanner settings c w)) as [res|e].
  - rewrite state_of_bind_ret. eapply rtc_l; [exact Hstep|]. apply IH.
    pose proof (complete_scheduler c w) as Hsched.
    unfold scheduler_of in Hsched. injection Hsched as _ _ ->.
    rewrite Hrun. cbn [remove_first]. rewrite decide_True by reflexivity.
    reflexivity.
  - apply rtc_once, Hstep.
Qed.

Lemma run_round_steps w :
  steps w (state_of (run_round config_store scanner settings w)).
Proof.
  unfold run_round. rewrite state_of_bind.
  pose proof (start_up_to_steps (Pos.to_nat (concurrencyLimit settings)) w) as Hstart.
  destruct (result_of (start_up_to settings _ w)); [|exact Hstart].
  etrans; [exact Hstart|].
  rewrite state_of_bind. cbn [get result_of state_of fst snd].
  apply for_each_complete_steps. reflexivity.
Qed.

Lemma drain_steps (rounds : nat) :
  ∀ w, steps w (state_of (drain config_store scanner settings rounds w)).
Proof.
  induction rounds as [|k IH]; intros w; [apply rtc_refl|].
  cbn [drain]. rewrite state_of_bind. cbn [get result_of state_of fst snd].
  assert (Hround : steps w
            (state_of (bind (run_round config_store scanner settings)
                         (fun done => bind (drain config_store scanner settings k)
                                        (fun rest => ret (done ++ rest))) w))).
  { rewrite state_of_bind.
    destruct (result_of (run_round config_store scanner settings w));
      [|apply run_round_steps].
    rewrite state_of_bind_ret. etrans; [apply run_round_steps | apply IH]. }
  destruct (pending w); [destruct (running w)|]; [apply rtc_refl | exact Hround..].
Qed.

Lemma tick_steps (now : Z) w :
  listing_unique config_store w →
  steps w (state_of (tick cron_latest config_store scanner settings now w)).
Proof.
  intros Huniq. unfold tick. rewrite state_of_bind.
  pose proof (step_tick cron_latest config_store scanner settings now w Huniq) as Hstep.
  destruct (result_of (begin_tick cron_latest config_store now w));
    [|apply rtc_once, Hstep].
  eapply rtc_l; [exact Hstep|].
  rewrite state_of_bind. cbn [get result_of state_of fst snd].
  apply drain_steps.
Qed.

Lemma reachable_steps w w' :
  reachable cron_latest config_store scanner settings w →
  steps w w' →
  reachable cron_latest config_store scanner settings w'.
Proof.
  intros Hreach Hsteps. induction Hsteps as [w | w w1 w2 Hstep _ IH].
  - exact Hreach.
  - apply IH. exact (reachable_step _ _ _ _ _ _ Hreach Hstep).
Qed.

(** A tick leads from reachable states to reachable states. *)
Lemma tick_reachable (now : Z) w :
  listing_unique config_store w →
  reachable cron_latest config_store scanner settings w →
  reachable cron_latest config_store scanner settings
    (state_of (tick cron_latest config_store scanner settings now w)).
Proof.
  intros Huniq Hreach. exact (reachable_steps _ _ Hreach (tick_steps now w Huniq)).
Qed.

(** *** A tick whose store read succeeds returns, with the pool empty *)

Lemma complete_always_returns (c : ScanConfig) :
  always_returns (complete config_store scanner settings c).
Proof.
  intros w. unfold complete. rewrite result_of_bind.
  destruct (run_always_returns c (timeout settings) (maxRetries settings) w)
    as [res ->].
  rewrite result_of_bind. cbn [modify result_of state_of fst snd].
  unfold catch.
  destruct (bind (saveResult config_store (id c) res) _ _) as [[[a|e] w1] evs1];
    cbn; eauto.
Qed.

Lemma for_each_complete_empties (l : list ScanConfig) :
  ∀ w, running w = l →
       (∃ results,
          result_of (for_each (complete config_store scanner settings) l w)
            = Return results) ∧
       running (state_of (for_each (complete config_store scanner settings) l w)) = [] ∧
       pending (state_of (for_each (complete config_store scanner settings) l w))
         = pending w.
Proof.
  induction l as [|c l IH]; intros w Hrun; [cbn; eauto|].
  cbn [for_each]. rewrite result_of_bind, state_of_bind.
  destruct (complete_always_returns c w) as [res Hres]. rewrite Hres.
  pose proof (complete_scheduler c w) as Hsched.
  unfold scheduler_of in Hsched. injection Hsched as _ Hp Hr.
  rewrite Hrun in Hr. cbn [remove_first] in Hr.
  rewrite decide_True in Hr by reflexivity.
  destruct (IH _ Hr) as ([results Hresults] & Hempty & Hpending).
  rewrite result_of_bind, state_of_bind_ret, Hresults.
  cbn [ret result_of fst]. rewrite Hempty, Hpending, Hp. eauto.
Qed.

Lemma start_next_returns w : result_of (start_next settings w) = Return tt.
Proof.
  unfold start_next, bind, get. cbn.
  destruct (pending w); [reflexivity|]. destruct (decide _); reflexivity.
Qed.

Lemma start_up_to_returns (n : nat) :
  ∀ w, result_of (start_up_to settings n w) = Return tt.
Proof.
  induction n as [|k IH]; intros w; [reflexivity|].
  cbn [start_up_to]. rewrite result_of_bind, start_next_returns. apply IH.
Qed.

Lemma start_up_to_pending (n : nat) :
  ∀ w, (length (pending (state_of (start_up_to settings n w)))
          ≤ length (pending w))%nat.
Proof.
  induction n as [|k IH]; intros w; [reflexivity|].
  cbn [start_up_to]. rewrite state_of_bind, start_next_returns.
  etrans; [apply IH|].
  pose proof (start_next_scheduler w) as Hsched. unfold scheduler_of in Hsched.
  destruct (pending w) as [|c rest]; [|destruct (decide _)];
    injection Hsched as _ -> _; cbn [length]; lia.
Qed.

(** With no execution running, filling the workers starts a pending one. *)
Lemma start_up_to_progress w :
  running w = [] → pending w ≠ [] →
  (length (pending (state_of
             (start_up_to settings (Pos.to_nat (concurrencyLimit settings)) w)))
     < length (pending w))%nat.
Proof.
  intros Hrun Hpending.
  destruct (Pos.to_nat (concurrencyLimit settings)) as [|k] eqn:Hlimit; [lia|].
  cbn [start_up_to]. rewrite state_of_bind, start_next_returns.
  eapply Nat.le_lt_trans; [apply start_up_to_pending|].
  pose proof (start_next_scheduler w) as Hsched. unfold scheduler_of in Hsched.
  destruct (pending w) as [|c rest]; [contradiction|].
  rewrite Hrun, Hlimit in Hsched. cbn [length] in Hsched.
  rewrite decide_True in Hsched by lia.
  injection Hsched as _ -> _. cbn [length]. lia.
Qed.

Lemma run_round_empties w :
  (∃ results, result_of (run_round config_store scanner settings w) = Return results) ∧
  running (state_of (run_round config_store scanner settings w)) = [] ∧
  (length (pending (state_of (run_round config_store scanner settings w)))
     ≤ length (pending w))%nat ∧
  (running w = [] → pending w ≠ [] →
   (length (pending (state_of (run_round config_store scanner settings w)))
      < length (pending w))%nat).
Proof.
  unfold run_round. rewrite result_of_bind, state_of_bind, start_up_to_returns.
  rewrite result_of_bind, state_of_bind. cbn [get result_of state_of fst snd].
  set (w1 := state_of (start_up_to settings _ w)).
  destruct (for_each_complete_empties (running w1) w1 eq_refl)
    as (Hres & Hempty & Hpending).
  rewrite Hpending. repeat split; [exact Hres | exact Hempty | |].
  - apply start_up_to_pending.
  - apply start_up_to_progress.
Qed.

Lemma drain_empties (rounds : nat) :
  ∀ w, (length (pending w) + (match running w with [] => 0 | _ => 1 end)
          ≤ rounds)%nat →
       (∃ results,
          result_of (drain config_store scanner settings rounds w) = Return results) ∧
       pending (state_of (drain config_store scanner settings rounds w)) = [] ∧
       running (state_of (drain config_store scanner settings rounds w)) = [].
Proof.
  induction rounds as [|k IH]; intros w Hfuel.
  - destruct (pending w) eqn:Hp; [|cbn [length] in Hfuel; lia].
    destruct (running w) eqn:Hr; [|lia]. cbn. eauto.
  - cbn [drain]. rewrite result_of_bind, state_of_bind.
    cbn [get result_of state_of fst snd].
    destruct (run_round_empties w) as ([done Hdone] & Hempty & Hle & Hlt).
    assert (Hround :
      (∃ results,
         result_of (bind (run_round config_store scanner settings)
                      (fun done => bind (drain config_store scanner settings k)
                                     (fun rest => ret (done ++ rest))) w)
           = Return results) ∧
      pending (state_of (bind (run_round config_store scanner settings)
                           (fun done => bind (drain config_store scanner settings k)
                                          (fun rest => ret (done ++ rest))) w)) = [] ∧
      running (state_of (bind (run_round config_store scanner settings)
                           (fun done => bind (drain config_store scanner settings k)
                                          (fun rest => ret (done ++ rest))) w)) = []).
    { rewrite result_of_bind, state_of_bind, Hdone.
      rewrite result_of_bind, state_of_bind_ret.
      destruct (IH (state_of (run_round config_store scanner settings w)))
        as ([rest ->] & Hp & Hr); [|cbn; eauto].
      rewrite Hempty.
      destruct (running w) eqn:Hrun; [|lia].
      destruct (pending w) eqn:Hp; [|specialize (Hlt eq_refl); cbn [length] in *].
      - cbn [length] in Hle. lia.
      - assert (Hne : s :: l ≠ []) by discriminate. specialize (Hlt Hne). lia. }
    destruct (pending w) eqn:Hp; [destruct (running w) eqn:Hr|];
      [cbn; eauto | exact Hround..].
Qed.

(** When the store can be read, [tick] returns its list of results and
    leaves no execution pending or running. *)
Lemma tick_returns_and_drains (now : Z) w (configs : list ScanConfig) :
  store_read config_store (store w) = Some configs →
  (∃ results,
     result_of (tick cron_latest config_store scanner settings now w)
       = Return results) ∧
  pending (state_of (tick cron_latest config_store scanner settings now w)) = [] ∧
  running (state_of (tick cron_latest config_store scanner settings now w)) = [].
Proof.
  intros Hread. unfold tick. rewrite result_of_bind, state_of_bind.
  assert (Hbegin : result_of (begin_tick cron_latest config_store now w) = Return tt).
  { unfold begin_tick. rewrite result_of_bind, load_unfold, Hread.
    cbn [result_of state_of fst snd]. rewrite result_of_bind.
    cbn [get result_of state_of fst snd]. rewrite result_of_bind.
    destruct (for_each_dispatch_returns
                (due_configs cron_latest configs now (inFlight w)) w)
      as [us ->]. reflexivity. }
  rewrite Hbegin. rewrite result_of_bind, state_of_bind.
  cbn [get result_of state_of fst snd].
  apply drain_empties.
  destruct (running _); lia.
Qed.

End WithCollaborators.

(** *** The statements on concrete inputs *)

Lemma isDue_disabled_is_false_witness :
  enabled (demo_config "c1" false (Some 0)) = false ∧
  isDue hourly_cron (demo_config "c1" false (Some 0)) 3600 = Return false.
Proof.
  split; [reflexivity|].
  apply (isDue_disabled_is_false hourly_cron (demo_config "c1" false (Some 0)) 3600).
  reflexivity.
Defined.

Lemma tick_abandoned_on_store_failure_witness :
  let w := demo_world false [demo_config "c1" true None] [] in
  result_of (load mem_config_store w) = Raise StoreUnavailableError ∧
  result_of (tick hourly_cron mem_config_store scripted_scanner demo_settings 0 w) =
    Raise StoreUnavailableError ∧
  state_of (tick hourly_cron mem_config_store scripted_scanner demo_settings 0 w) = w ∧
  executor_invocations
    (events_of (tick hourly_cron mem_config_store scripted_scanner demo_settings 0 w)) = 0%nat ∧
  scan_invocations
    (events_of (tick hourly_cron mem_config_store scripted_scanner demo_settings 0 w)) = 0%nat.
Proof.
  intros w. split; [reflexivity|].
  apply (tick_abandoned_on_store_failure hourly_cron mem_config_store scripted_scanner
           demo_settings 0 w StoreUnavailableError).
  reflexivity.
Defined.


(** That state has two executions in flight, one of them running. *)
Example in_flight_after_tick_and_start :
  let w0 := demo_world true [demo_config "c1" true None; demo_config "c2" true None] [] in
  let w1 := state_of (begin_tick hourly_cron mem_config_store 0 w0) in
  let w2 := state_of (start_next demo_settings w1) in
  id <$> pending w2 = ["c2"] ∧ id <$> running w2 = ["c1"] ∧
  elements (inFlight w2) = ["c1"; "c2"].
Proof. vm_compute. repeat split. Qed.

(** Why the listing must carry distinct identifiers: the due configs are
    filtered against the in-flight set as it is before the dispatch, so a
    listing with the same identifier twice puts two executions in flight. *)
Example duplicate_listing_dispatched_twice :
  let c := demo_config "c1" true None in
  let w := state_of (begin_tick hourly_cron mem_config_store 0 (demo_world true [c; c] [])) in
  executions_of "c1" (in_flight_executions w) = 2%nat.
Proof. vm_compute. reflexivity. Qed.

(** *** The scenarios of section 8 *)

Example scenario_fixed_interval :
  isDue hourly_cron (demo_config "c1" true None) 0 = Return true ∧
  isDue hourly_cron (demo_config "c1" true (Some 0)) 59 = Return false ∧
  isDue hourly_cron (demo_config "c1" true (Some 0)) 60 = Return true.
Proof. repeat split. Qed.

Example scenario_two_transient_failures_then_success :
  let c := demo_config "c1" true None in
  let script := [(ScanTransient, 1); (ScanTransient, 1); (Records ["host-a"], 1)] in
  let r := run demo_settings c scripted_scanner 30 3 (demo_world true [c] script) in
  outcome_map status r.1.1 = Return SUCCESS ∧
  scan_invocations r.2 = 3%nat.
Proof. vm_compute. repeat split. Qed.

Example scenario_invalid_target :
  let c := demo_config "c1" true None in
  let script := [(ScanInvalidTarget, 1); (Records ["host-a"], 1)] in
  let r := run demo_settings c scripted_scanner 30 3 (demo_world true [c] script) in
  outcome_map status r.1.1 = Return FAILURE ∧
  outcome_map error_detail r.1.1 = Return (Some InvalidTargetError) ∧
  scan_invocations r.2 = 1%nat.
Proof. vm_compute. repeat split. Qed.

(** The bound of [maxRetries + 1] scans is reached when every attempt
    times out. *)
Example scenario_retries_exhausted :
  let c := demo_config "c1" true None in
  let script := [(ScanTransient, 1); (Records [], 31); (Records [], 40); (Records [], 50)] in
  let r := run demo_settings c scripted_scanner 30 3 (demo_world true [c] script) in
  outcome_map status r.1.1 = Return TIMEOUT ∧
  scan_invocations r.2 = 4%nat.
Proof. vm_compute. repeat split. Qed.

Example scenario_tick :
  let cs := [demo_config "c1" true None; demo_config "c2" true None;
             demo_config "c3" true None; demo_config "c4" false None] in
  let r := tick hourly_cron mem_config_store scripted_scanner demo_settings 0
             (demo_world true cs [(ScanTransient, 1)]) in
  outcome_map (fmap config_id) r.1.1 = Return ["c1"; "c2"; "c3"] ∧
  elements (inFlight r.1.2) = [] ∧
  length (saved (store r.1.2)) = 3%nat.
Proof. vm_compute. repeat split. Qed.

End EngineProofs.

(** ** The commands and the loader in sequence *)

Module AgentSessions.
Import Agent.

Lemma string_app_assoc (s t u : string) : (s +:+ t) +:+ u = s +:+ (t +:+ u).
Proof.
  induction s as [|a s IH]; [reflexivity|].
  change (String a ((s +:+ t) +:+ u) = String a (s +:+ (t +:+ u))).
  rewrite IH. reflexivity.
Qed.

Lemma string_app_nil_r (s : string) : s +:+ EmptyString = s.
Proof.
  induction s as [|a s IH]; [reflexivity|].
  change (String a (s +:+ EmptyString) = String a s). rewrite IH. reflexivity.
Qed.




Section WithStore.
Context {Remote : Type}.
Variable respond : Query → Remote → outcome exn Response * Remote.
Implicit Types r : Remote.

Lemma invoke_unfold (c : command) r :
  invoke c r = (Return tt, r, [EvEcho (line_of c)]).
Proof. destruct c; reflexivity. Qed.

Lemma output_invoke (c : command) r :
  output (invoke c r) = line_of c +:+ newline.
Proof. rewrite invoke_unfold. reflexivity. Qed.





(** X3: standard output does not tell one invocation of [run] from two
    invocations: with a newline in [config_id], [run] prints what [run]
    followed by [schedule] prints. *)
Theorem run_output_imitates_two_invocations (config_id : string) r :
  output (run (config_id +:+ newline +:+ "Placeholder: schedule scans") r) =
  output ((run config_id ;; schedule) r).
Proof.
  change (("Placeholder: run scan for "
             +:+ (config_id +:+ newline +:+ "Placeholder: schedule scans"))
            +:+ newline =
          ("Placeholder: run scan for " +:+ config_id)
            +:+ newline +:+ ("Placeholder: schedule scans" +:+ newline)).
  rewrite !string_app_assoc. reflexivity.
Qed.

(** *** Sequences of invocations *)

Lemma session_unfold (cs : list command) r :
  session cs r =
    (Return (replicate (length cs) tt), r, EvEcho <$> (line_of <$> cs)).
Proof.
  induction cs as [|c cs IH]; [reflexivity|].
  unfold session in *. cbn [for_each].
  rewrite (EngineProofs.bind_return _ _ _ _ _ _ (invoke_unfold c r)).
  rewrite (EngineProofs.bind_return _ _ _ _ _ _ IH).
  cbn [ret result_of state_of events_of fst snd]. rewrite app_nil_r. reflexivity.
Qed.

Lemma stdout_of_echo (line : string) (evs : list event) :
  stdout_of (EvEcho line :: evs) = line +:+ newline +:+ stdout_of evs.
Proof. reflexivity. Qed.

(** X4: a sequence of invocations never fails, leaves the remote store as
    it is and sends it nothing, and prints what its invocations print, one
    after the other: one echo per invocation. *)
Theorem session_prints_each_invocation (cs : list command) r :
  result_of (session cs r) = Return (replicate (length cs) tt) ∧
  state_of (session cs r) = r ∧
  events_of (session cs r) = concat ((fun c => events_of (invoke c r)) <$> cs) ∧
  length (events_of (session cs r)) = length cs ∧
  no_engine_activity (events_of (session cs r)) ∧
  output (session cs r) = foldr (fun c text => output (invoke c r) +:+ text) EmptyString cs.
Proof.
  rewrite session_unfold. cbn [result_of state_of events_of fst snd].
  split; [reflexivity|]. split; [reflexivity|]. split; [|split; [|split]].
  - induction cs as [|c cs IH]; [reflexivity|].
    rewrite !fmap_cons, IH, invoke_unfold. reflexivity.
  - rewrite !length_fmap. reflexivity.
  - intros e He. apply list_elem_of_fmap in He as (line & -> & _). repeat split.
  - unfold output at 1. cbn [events_of snd].
    induction cs as [|c cs IH]; [reflexivity|].
    rewrite !fmap_cons, stdout_of_echo, IH. cbn [foldr].
    rewrite output_invoke, string_app_assoc. reflexivity.
Qed.


(** *** Calls of the loader in a row *)



(** X7: against a store that answers the request with the same response
    and stays as it is, every one of [n] calls in a row returns the rows of
    that response, and the store is asked [n] times. *)
Theorem load_repeatedly_on_quiet_store (n : nat) r (resp : Response) :
  respond scan_configs_query r = (Return resp, r) →
  load_repeatedly respond n r =
    (Return (replicate n (data resp)), r,
     replicate n (EvStoreRequest scan_configs_query)).
Proof.
  intros Hquiet. induction n as [|n IH]; [reflexivity|].
  unfold load_repeatedly in *. cbn [replicate for_each].
  assert (Hload : load_configs respond r =
                    (Return (data resp), r, [EvStoreRequest scan_configs_query])).
  { rewrite AgentProofs.load_configs_unfold, Hquiet. reflexivity. }
  rewrite (EngineProofs.bind_return _ _ _ _ _ _ Hload).
  rewrite (EngineProofs.bind_return _ _ _ _ _ _ IH).
  cbn [ret result_of state_of events_of fst snd]. rewrite app_nil_r. reflexivity.
Qed.

End WithStore.


Lemma load_repeatedly_on_quiet_store_witness :
  mem_respond scan_configs_query demo_store =
    (Return {| data := demo_rows; count := None |}, demo_store) ∧
  load_repeatedly mem_respond 3 demo_store =
    (Return [demo_rows; demo_rows; demo_rows], demo_store,
     [EvStoreRequest scan_configs_query; EvStoreRequest scan_configs_query;
      EvStoreRequest scan_configs_query]).
Proof.
  assert (H : mem_respond scan_configs_query demo_store =
                (Return {| data := demo_rows; count := None |}, demo_store))
    by (vm_compute; reflexivity).
  split; [exact H|].
  exact (load_repeatedly_on_quiet_store mem_respond 3 demo_store
           {| data := demo_rows; count := None |} H).
Defined.

(** A store that goes away after the first answer: the second of three
    calls fails, and no third request is sent. *)
Example load_repeatedly_stops_at_failure :
  let respond := fun q (up : bool) =>
    if up then (Return {| data := demo_rows; count := None |}, false)
    else (Raise ConnectError, false) in
  load_repeatedly respond 3 true =
    (Raise ConnectError, false,
     [EvStoreRequest scan_configs_query; EvStoreRequest scan_configs_query]).
Proof. reflexivity. Qed.

End AgentSessions.
